(** * A shallow embedding of [spotify/track.py] (pyspotify).

    The Python wrapper objects live in a heap of object ids; each [Track]
    object holds the [sp_track] pointer registered with [ffi.gc], whose
    finalizer [sp_track_release] runs when the object is collected.  The
    native libspotify layer is a store of track records and reference
    counts; every call into it is logged in a trace so that "no native
    call" and "no native field read" can be stated. *)

From Stdlib Require Import ZArith String List.
From stdpp Require Import base gmap.
Import ListNotations.
Open Scope Z_scope.

(** ** Native (libspotify) layer *)

(** A [char *] argument: [ffi.NULL] or a NUL-terminated buffer. *)
Inductive native_str :=
| NULL
| CharArray (b : list Byte.byte).

(** The data libspotify keeps for an [sp_track *]; integers as the C
    functions return them ([int], [bool] as int, pointers as integers with
    0 the null pointer). *)
Record sp_track_data := {
  is_loaded_raw : Z;
  error_raw : Z;
  offline_status_raw : Z;
  availability_raw : Z;
  is_local_raw : Z;
  is_autolinked_raw : Z;
  playable_raw : Z;
  is_placeholder_raw : Z;
  is_starred_raw : Z;
  album_raw : Z;
  name_raw : list Byte.byte;
  duration_raw : Z;
  popularity_raw : Z;
  disc_raw : Z;
  index_raw : Z
}.

(** The native calls of the module, as logged in the trace. *)
Inductive native_call :=
| sp_track_add_ref (p : Z)
| sp_track_release (p : Z)
| sp_track_is_loaded (p : Z)
| sp_track_error (p : Z)
| sp_track_offline_get_status (p : Z)
| sp_track_get_availability (s p : Z)
| sp_track_is_local (s p : Z)
| sp_track_is_autolinked (s p : Z)
| sp_track_get_playable (s p : Z)
| sp_track_is_placeholder (p : Z)
| sp_track_is_starred (s p : Z)
| sp_track_album (p : Z)
| sp_album_add_ref (p : Z)
| sp_track_name (p : Z)
| sp_track_duration (p : Z)
| sp_track_popularity (p : Z)
| sp_track_disc (p : Z)
| sp_track_index (p : Z)
| sp_localtrack_create (artist title album : native_str) (length : Z).

(** Native reads that are neither the load query nor the error query. *)
Definition field_read (c : native_call) : bool :=
  match c with
  | sp_track_is_loaded _ | sp_track_error _
  | sp_track_add_ref _ | sp_track_release _ | sp_album_add_ref _ => false
  | _ => true
  end.

(** ** Interpreter state *)

Record state := {
  tracks : Z -> sp_track_data;          (** native track data by pointer *)
  refcount : Z -> Z;                    (** native reference counts *)
  next_ptr : Z;                         (** next pointer libspotify vends *)
  objects : gmap nat Z;                 (** live Track objects: id -> sp_track *)
  next_id : nat;                        (** next fresh Python object id *)
  session_instance : option Z;          (** [spotify.session_instance.sp_session] *)
  trace : list native_call              (** native calls, most recent first *)
}.

Definition upd (f : Z -> Z) (k v : Z) : Z -> Z :=
  fun x => if Z.eq_dec x k then v else f x.

(** ** Python values and exceptions *)

Inductive pyval :=
| PNone
| PBool (b : bool)
| PInt (z : Z)
| PStr (s : string)
| PTrackAvailability (z : Z)
| PTrackOfflineStatus (z : Z)
| PErrorType (z : Z)
| PAlbum (sp_album : Z)
| PTrack (id : nat).

Inductive exn :=
| RuntimeError (msg : string)
| LibError (code : Z)
| OverflowError (msg : string).

Inductive outcome (A : Type) :=
| Ok (a : A)
| Raise (e : exn).
Arguments Ok {A} a.
Arguments Raise {A} e.

(** A state-and-exception monad. *)
Definition M (A : Type) := state -> outcome A * state.

Definition ret {A} (a : A) : M A := fun s => (Ok a, s).
Definition bind {A B} (m : M A) (f : A -> M B) : M B :=
  fun s => match m s with
           | (Ok a, s') => f a s'
           | (Raise e, s') => (Raise e, s')
           end.
Definition raise {A} (e : exn) : M A := fun s => (Raise e, s).
Definition get : M state := fun s => (Ok s, s).

Notation "x <- m ;; k" := (bind m (fun x => k))
  (at level 100, m at next level, right associativity).
Notation "m ;;; k" := (bind m (fun _ => k))
  (at level 100, right associativity).

Definition log_call (c : native_call) (s : state) : state :=
  {| tracks := tracks s; refcount := refcount s;
     next_ptr := next_ptr s; objects := objects s;
     next_id := next_id s;
     session_instance := session_instance s;
     trace := c :: trace s |}.

(** A native call: log it and return what libspotify returns. *)
Definition native {A} (c : native_call) (f : state -> A) : M A :=
  fun s => (Ok (f s), log_call c s).

Definition set_refcount (p d : Z) : M unit :=
  fun s => (Ok tt, {| tracks := tracks s;
                      refcount := upd (refcount s) p (refcount s p + d);
                      next_ptr := next_ptr s; objects := objects s;
                      next_id := next_id s;
                      session_instance := session_instance s;
                      trace := trace s |}).

Definition lib_sp_track_add_ref (p : Z) : M unit :=
  native (sp_track_add_ref p) (fun _ => tt) ;;; set_refcount p 1.

Definition lib_sp_track_release (p : Z) : M unit :=
  native (sp_track_release p) (fun _ => tt) ;;; set_refcount p (-1).

Definition lib_sp_album_add_ref (p : Z) : M unit :=
  native (sp_album_add_ref p) (fun _ => tt) ;;; set_refcount p 1.

(** Modelled from the spec: [Album.__init__(sp_album, add_ref=True)] of
    [spotify/album.py] is not part of this module; per the NativeHandle
    contract (spec 4.1) the default [add_ref=True] takes one reference on
    the wrapped resource.  The [Album] object itself is not tracked. *)
Definition Album_init (sp_album : Z) : M unit :=
  lib_sp_album_add_ref sp_album.

(** The bounds of a C [int] argument: cffi raises [OverflowError] for a
    Python int outside them before the native function is called. *)
Definition INT_MIN : Z := - 2 ^ 31.
Definition INT_MAX : Z := 2 ^ 31 - 1.

Definition c_int_arg (v : Z) : M Z :=
  if (INT_MIN <=? v) && (v <=? INT_MAX) then ret v
  else raise (OverflowError "integer does not fit 'int'").

Definition alloc_object (p : Z) : M nat :=
  fun s => (Ok (next_id s),
            {| tracks := tracks s; refcount := refcount s;
               next_ptr := next_ptr s;
               objects := <[next_id s := p]> (objects s);
               next_id := S (next_id s);
               session_instance := session_instance s;
               trace := trace s |}).

Definition drop_object (id : nat) : M unit :=
  fun s => (Ok tt,
            {| tracks := tracks s; refcount := refcount s;
               next_ptr := next_ptr s;
               objects := delete id (objects s);
               next_id := next_id s;
               session_instance := session_instance s;
               trace := trace s |}).

(** [spotify.session_instance] *)
Definition session_instance_get : M (option Z) :=
  s <- get ;; ret (session_instance s).

(** [if spotify.session_instance is None: raise RuntimeError(...)] *)
Definition require_session : M Z :=
  o <- session_instance_get ;;
  match o with
  | None => raise (RuntimeError "Session must be initialized")
  | Some sp_session => ret sp_session
  end.

(** Modelled from the spec: [Error.maybe_raise] of [spotify.error] is not
    part of this module; the spec (4.3 step 2, section 7) says a non-OK
    error code is raised as an error carrying that code, and [ErrorType.OK]
    is libspotify's [SP_ERROR_OK = 0]. *)
Definition ErrorType_OK : Z := 0.

Definition Error_maybe_raise (error_type : Z) : M unit :=
  if Z.eqb error_type ErrorType_OK then ret tt
  else raise (LibError error_type).

(** C's int-as-bool, Python's [bool(...)] on the returned int. *)
Definition py_bool (z : Z) : bool := negb (Z.eqb z 0).

Section Track.

(** [spotify.utils.to_unicode] (decoding a [char *]) and
    [spotify.utils.to_bytes] (encoding a text argument); both live outside
    this module and are kept abstract. *)
Variable to_unicode : list Byte.byte -> string.
Variable to_bytes : string -> list Byte.byte.

(** [Track.__init__(self, sp_track, add_ref=True)]: the new object holds
    [ffi.gc(sp_track, lib.sp_track_release)]. *)
Definition Track_init (sp_track : Z) (add_ref : bool) : M nat :=
  (if add_ref then lib_sp_track_add_ref sp_track else ret tt) ;;;
  alloc_object sp_track.

(** End of life of a Track object: the [ffi.gc] finalizer of its
    [sp_track] cdata runs [sp_track_release].  An object that is already
    gone has no finalizer left to run. *)
Definition Track_finalize (id : nat) : M unit :=
  s <- get ;;
  match objects s !! id with
  | Some p => drop_object id ;;; lib_sp_track_release p
  | None => ret tt
  end.

Definition Track_is_loaded (sp_track : Z) : M bool :=
  r <- native (sp_track_is_loaded sp_track)
              (fun s => is_loaded_raw (tracks s sp_track)) ;;
  ret (py_bool r).

Definition Track_error (sp_track : Z) : M Z :=
  native (sp_track_error sp_track) (fun s => error_raw (tracks s sp_track)).

Definition Track_offline_status (sp_track : Z) : M pyval :=
  e <- Track_error sp_track ;; Error_maybe_raise e ;;;
  r <- native (sp_track_offline_get_status sp_track)
              (fun s => offline_status_raw (tracks s sp_track)) ;;
  ret (PTrackOfflineStatus r).

Definition Track_availability (sp_track : Z) : M pyval :=
  sess <- require_session ;;
  e <- Track_error sp_track ;; Error_maybe_raise e ;;;
  r <- native (sp_track_get_availability sess sp_track)
              (fun s => availability_raw (tracks s sp_track)) ;;
  ret (PTrackAvailability r).

Definition Track_is_local (sp_track : Z) : M pyval :=
  sess <- require_session ;;
  e <- Track_error sp_track ;; Error_maybe_raise e ;;;
  l <- Track_is_loaded sp_track ;;
  if negb l then ret PNone else
  r <- native (sp_track_is_local sess sp_track)
              (fun s => is_local_raw (tracks s sp_track)) ;;
  ret (PBool (py_bool r)).

Definition Track_is_autolinked (sp_track : Z) : M pyval :=
  sess <- require_session ;;
  e <- Track_error sp_track ;; Error_maybe_raise e ;;;
  l <- Track_is_loaded sp_track ;;
  if negb l then ret PNone else
  r <- native (sp_track_is_autolinked sess sp_track)
              (fun s => is_autolinked_raw (tracks s sp_track)) ;;
  ret (PBool (py_bool r)).

Definition Track_playable (sp_track : Z) : M pyval :=
  sess <- require_session ;;
  e <- Track_error sp_track ;; Error_maybe_raise e ;;;
  q <- native (sp_track_get_playable sess sp_track)
              (fun s => playable_raw (tracks s sp_track)) ;;
  id <- Track_init q true ;;
  ret (PTrack id).

Definition Track_is_placeholder (sp_track : Z) : M pyval :=
  e <- Track_error sp_track ;; Error_maybe_raise e ;;;
  r <- native (sp_track_is_placeholder sp_track)
              (fun s => is_placeholder_raw (tracks s sp_track)) ;;
  ret (PBool (py_bool r)).

Definition Track_is_starred (sp_track : Z) : M pyval :=
  sess <- require_session ;;
  e <- Track_error sp_track ;; Error_maybe_raise e ;;;
  l <- Track_is_loaded sp_track ;;
  if negb l then ret PNone else
  r <- native (sp_track_is_starred sess sp_track)
              (fun s => is_starred_raw (tracks s sp_track)) ;;
  ret (PBool (py_bool r)).

(** [Album(sp_album) if sp_album else None]; the [Album] wrapper is
    represented by the pointer it wraps, its construction by [Album_init]. *)
Definition Track_album (sp_track : Z) : M pyval :=
  e <- Track_error sp_track ;; Error_maybe_raise e ;;;
  sp_album <- native (sp_track_album sp_track)
                     (fun s => album_raw (tracks s sp_track)) ;;
  if Z.eqb sp_album 0 then ret PNone
  else Album_init sp_album ;;; ret (PAlbum sp_album).

Definition Track_name (sp_track : Z) : M pyval :=
  e <- Track_error sp_track ;; Error_maybe_raise e ;;;
  raw <- native (sp_track_name sp_track)
                (fun s => name_raw (tracks s sp_track)) ;;
  let name := to_unicode raw in
  ret (if String.eqb name EmptyString then PNone else PStr name).

Definition Track_duration (sp_track : Z) : M pyval :=
  e <- Track_error sp_track ;; Error_maybe_raise e ;;;
  duration <- native (sp_track_duration sp_track)
                     (fun s => duration_raw (tracks s sp_track)) ;;
  ret (if Z.eqb duration 0 then PNone else PInt duration).

Definition Track_popularity (sp_track : Z) : M pyval :=
  e <- Track_error sp_track ;; Error_maybe_raise e ;;;
  l <- Track_is_loaded sp_track ;;
  if negb l then ret PNone else
  r <- native (sp_track_popularity sp_track)
              (fun s => popularity_raw (tracks s sp_track)) ;;
  ret (PInt r).

Definition Track_disc (sp_track : Z) : M pyval :=
  e <- Track_error sp_track ;; Error_maybe_raise e ;;;
  disc <- native (sp_track_disc sp_track)
                 (fun s => disc_raw (tracks s sp_track)) ;;
  ret (if Z.eqb disc 0 then PNone else PInt disc).

Definition Track_index (sp_track : Z) : M pyval :=
  e <- Track_error sp_track ;; Error_maybe_raise e ;;;
  index <- native (sp_track_index sp_track)
                  (fun s => index_raw (tracks s sp_track)) ;;
  ret (if Z.eqb index 0 then PNone else PInt index).

(** [lib.sp_localtrack_create]: libspotify vends a fresh track with one
    reference owned by the caller. *)
Definition lib_sp_localtrack_create (artist title album : native_str)
    (length : Z) : M Z :=
  fun s => let p := next_ptr s in
    (Ok p, {| tracks := tracks s;
              refcount := upd (refcount s) p 1;
              next_ptr := p + 1; objects := objects s;
              next_id := next_id s;
              session_instance := session_instance s;
              trace := sp_localtrack_create artist title album length
                         :: trace s |}).

(** [convert = lambda value: ffi.NULL if value is None else
    ffi.new('char[]', to_bytes(value))] *)
Definition convert (value : option string) : native_str :=
  match value with
  | None => NULL
  | Some v => CharArray (to_bytes v)
  end.

(** [LocalTrack.__init__(self, artist=None, title=None, album=None,
    length=None)]; the call [lib.sp_localtrack_create(..., length)] first
    converts [length] to the C [int] parameter. *)
Definition LocalTrack_init (artist title album : option string)
    (length : option Z) : M nat :=
  let artist := convert artist in
  let title := convert title in
  let album := convert album in
  let length := match length with None => -1 | Some l => l end in
  length <- c_int_arg length ;;
  sp_track <- lib_sp_localtrack_create artist title album length ;;
  Track_init sp_track false.

(** The properties of a Track, by name. *)
Inductive accessor :=
| is_loaded | error | offline_status | availability | is_local
| is_autolinked | playable | is_placeholder | is_starred | album | name
| duration | popularity | disc | index.

Definition get_property (a : accessor) (sp_track : Z) : M pyval :=
  match a with
  | is_loaded => l <- Track_is_loaded sp_track ;; ret (PBool l)
  | error => e <- Track_error sp_track ;; ret (PErrorType e)
  | offline_status => Track_offline_status sp_track
  | availability => Track_availability sp_track
  | is_local => Track_is_local sp_track
  | is_autolinked => Track_is_autolinked sp_track
  | playable => Track_playable sp_track
  | is_placeholder => Track_is_placeholder sp_track
  | is_starred => Track_is_starred sp_track
  | album => Track_album sp_track
  | name => Track_name sp_track
  | duration => Track_duration sp_track
  | popularity => Track_popularity sp_track
  | disc => Track_disc sp_track
  | index => Track_index sp_track
  end.

End Track.

(** The accessors that begin with the session check. *)
Definition session_gated (a : accessor) : bool :=
  match a with
  | availability | is_local | is_autolinked | playable | is_starred => true
  | _ => false
  end.

(** The accessors that call [Error.maybe_raise(self.error)]. *)
Definition error_gated (a : accessor) : bool :=
  match a with
  | is_loaded | error => false
  | _ => true
  end.

(** A concrete native track and interpreter state, for the examples. *)
Definition sample_track (loaded err pop : Z) : sp_track_data :=
  {| is_loaded_raw := loaded; error_raw := err; offline_status_raw := 2;
     availability_raw := 1; is_local_raw := 0; is_autolinked_raw := 0;
     playable_raw := 7; is_placeholder_raw := 0; is_starred_raw := 1;
     album_raw := 0; name_raw := []; duration_raw := 0;
     popularity_raw := pop; disc_raw := 0; index_raw := 0 |}.

Definition sample_state (d : sp_track_data) (sess : option Z) : state :=
  {| tracks := fun _ => d; refcount := fun _ => 1; next_ptr := 100;
     objects := {[ 0%nat := 5 ]}; next_id := 1%nat;
     session_instance := sess; trace := [] |}.

(** Every live object id is below the next fresh id. *)
Definition ids_below (s : state) : Prop :=
  forall (k : nat) (p : Z), objects s !! k = Some p -> (k < next_id s)%nat.

(** The same state with another value in [spotify.session_instance]. *)
Definition with_session (s : state) (o : option Z) : state :=
  {| tracks := tracks s; refcount := refcount s; next_ptr := next_ptr s;
     objects := objects s; next_id := next_id s;
     session_instance := o; trace := trace s |}.

(** The same state with the native load flag of track [p] set to [v]. *)
Definition with_loaded (s : state) (p v : Z) : state :=
  {| tracks := fun q =>
       if Z.eq_dec q p then
         let d := tracks s q in
         {| is_loaded_raw := v; error_raw := error_raw d;
            offline_status_raw := offline_status_raw d;
            availability_raw := availability_raw d;
            is_local_raw := is_local_raw d;
            is_autolinked_raw := is_autolinked_raw d;
            playable_raw := playable_raw d;
            is_placeholder_raw := is_placeholder_raw d;
            is_starred_raw := is_starred_raw d; album_raw := album_raw d;
            name_raw := name_raw d; duration_raw := duration_raw d;
            popularity_raw := popularity_raw d; disc_raw := disc_raw d;
            index_raw := index_raw d |}
       else tracks s q;
     refcount := refcount s; next_ptr := next_ptr s;
     objects := objects s; next_id := next_id s;
     session_instance := session_instance s; trace := trace s |}.

(** The accessors that consult [is_loaded]. *)
Definition load_sensitive (a : accessor) : bool :=
  match a with
  | is_loaded | is_local | is_autolinked | is_starred | popularity => true
  | _ => false
  end.

(** ** Properties *)

Ltac run_track :=
  repeat (unfold get_property, Track_is_loaded, Track_error,
    Track_offline_status, Track_availability, Track_is_local,
    Track_is_autolinked, Track_playable, Track_is_placeholder,
    Track_is_starred, Track_album, Track_name, Track_duration,
    Track_popularity, Track_disc, Track_index, Track_init,
    lib_sp_track_add_ref, set_refcount, alloc_object,
    Album_init, lib_sp_album_add_ref, require_session, session_instance_get, Error_maybe_raise, ErrorType_OK,
    native, log_call, bind, ret, raise, get in *; cbn in * ).

Ltac branch_track :=
  repeat (match goal with
          | |- context [if ?c then _ else _] =>
              let E := fresh "Eif" in destruct c eqn:E
          | |- context [match session_instance ?x with _ => _ end] =>
              let E := fresh "Esess" in destruct (session_instance x) eqn:E
          end; cbn).

(** C2: with no active session, each of [availability], [is_local],
    [is_autolinked], [playable] and [is_starred] raises
    [RuntimeError('Session must be initialized')] whatever the load and
    error state, before the error check and without any native call: the
    state, trace included, is left as it was. *)
Theorem session_gated_no_session (to_unicode : list Byte.byte -> string)
    (a : accessor) (sp_track : Z) (s : state) :
  session_gated a = true -> session_instance s = None ->
  get_property to_unicode a sp_track s =
    (Raise (RuntimeError "Session must be initialized"), s).
Proof.
  intros Ha Hs.
  destruct a; try discriminate Ha; run_track; rewrite Hs; reflexivity.
Qed.

(** C4: when [error] is a non-OK code (and, for the session-gated
    accessors, a session is active), every accessor that calls
    [Error.maybe_raise(self.error)] raises an error carrying that code
    after the single native error query and no field read, while
    [is_loaded] and [error] still return the load state and the code. *)
Theorem error_gated_raise (to_unicode : list Byte.byte -> string)
    (a : accessor) (sp_track : Z) (s : state) (e : Z) :
  error_raw (tracks s sp_track) = e -> e <> ErrorType_OK ->
  error_gated a = true ->
  (session_gated a = true -> session_instance s <> None) ->
  get_property to_unicode a sp_track s =
    (Raise (LibError e), log_call (sp_track_error sp_track) s) /\
  get_property to_unicode is_loaded sp_track s =
    (Ok (PBool (py_bool (is_loaded_raw (tracks s sp_track)))),
     log_call (sp_track_is_loaded sp_track) s) /\
  get_property to_unicode error sp_track s =
    (Ok (PErrorType e), log_call (sp_track_error sp_track) s).
Proof.
  intros He Hne Hg Hs.
  assert (Heq : Z.eqb e ErrorType_OK = false) by (apply Z.eqb_neq; exact Hne).
  unfold ErrorType_OK in Heq.
  subst e.
  split; [|split].
  - destruct a; try discriminate Hg; run_track;
      try (destruct (session_instance s) eqn:E;
           [| exfalso; apply Hs; reflexivity]);
      rewrite Heq; try rewrite E; reflexivity.
  - reflexivity.
  - reflexivity.
Qed.

(** C5: on an unloaded track with an active session and [error] OK,
    [is_local], [is_autolinked] and [is_starred] return [None]. *)
Theorem unloaded_flags_none (to_unicode : list Byte.byte -> string)
    (a : accessor) (sp_track : Z) (s : state) (sp_session : Z) :
  a = is_local \/ a = is_autolinked \/ a = is_starred ->
  session_instance s = Some sp_session ->
  error_raw (tracks s sp_track) = ErrorType_OK ->
  is_loaded_raw (tracks s sp_track) = 0 ->
  fst (get_property to_unicode a sp_track s) = Ok PNone.
Proof.
  intros Ha Hs He Hl.
  destruct Ha as [-> | [-> | ->]]; run_track; rewrite Hs; cbn;
    rewrite He; cbn; rewrite Hl; reflexivity.
Qed.

Lemma unloaded_flags_none_witness :
  fst (get_property (fun _ => EmptyString) is_starred 5
         (sample_state (sample_track 0 0 0) (Some 9))) = Ok PNone.
Proof.
  apply (unloaded_flags_none _ is_starred 5
           (sample_state (sample_track 0 0 0) (Some 9)) 9);
    [right; right | | |]; reflexivity.
Defined.

(** C10: [is_placeholder] has no session check: whatever the session and
    the load state, it raises the error code when [error] is non-OK and
    otherwise returns the native flag as a bool, never [None]. *)
Theorem is_placeholder_error_only (to_unicode : list Byte.byte -> string)
    (sp_track : Z) (s : state) :
  match fst (get_property to_unicode is_placeholder sp_track s) with
  | Ok v => error_raw (tracks s sp_track) = ErrorType_OK /\
            v = PBool (py_bool (is_placeholder_raw (tracks s sp_track)))
  | Raise ex => error_raw (tracks s sp_track) <> ErrorType_OK /\
                ex = LibError (error_raw (tracks s sp_track))
  end.
Proof.
  run_track.
  destruct (Z.eqb_spec (error_raw (tracks s sp_track)) 0); cbn; auto.
Qed.

(** C3 (counterexample): with no session at all, [offline_status] on an
    error-free track reads the native status and returns it; no liveness
    fault is raised. *)
Lemma offline_status_no_session_returns :
  get_property (fun _ => EmptyString) offline_status 5
    (sample_state (sample_track 1 0 0) None) =
  (Ok (PTrackOfflineStatus 2),
   log_call (sp_track_offline_get_status 5)
     (log_call (sp_track_error 5) (sample_state (sample_track 1 0 0) None))).
Proof. reflexivity. Qed.

(** C3 (amended): [offline_status] has no session check; whatever the
    session, it raises the error code when [error] is non-OK, and otherwise
    returns the native offline status. *)
Theorem offline_status_error_only (to_unicode : list Byte.byte -> string)
    (sp_track : Z) (s : state) :
  match fst (get_property to_unicode offline_status sp_track s) with
  | Ok v => error_raw (tracks s sp_track) = ErrorType_OK /\
            v = PTrackOfflineStatus (offline_status_raw (tracks s sp_track))
  | Raise ex => error_raw (tracks s sp_track) <> ErrorType_OK /\
                ex = LibError (error_raw (tracks s sp_track))
  end.
Proof.
  run_track.
  destruct (Z.eqb_spec (error_raw (tracks s sp_track)) 0); cbn; auto.
Qed.

Lemma int_field_absence (d : Z) :
  ((if Z.eqb d 0 then PNone else PInt d) = PNone <-> d = 0) /\
  (d <> 0 -> (if Z.eqb d 0 then PNone else PInt d) = PInt d).
Proof.
  destruct (Z.eqb_spec d 0); split; try split; intros; congruence.
Qed.

(** The value [album] returns on an error-free track. *)
Lemma Track_album_value (to_unicode : list Byte.byte -> string)
    (sp_track : Z) (s : state) :
  error_raw (tracks s sp_track) = ErrorType_OK ->
  fst (get_property to_unicode album sp_track s) =
    Ok (if Z.eqb (album_raw (tracks s sp_track)) 0 then PNone
        else PAlbum (album_raw (tracks s sp_track))).
Proof.
  intros He. run_track. rewrite He. cbn.
  destruct (album_raw (tracks s sp_track) =? 0); reflexivity.
Qed.

(** C6: on an error-free track, [duration], [disc] and [index] return
    [None] exactly when the native integer is 0 and that integer
    otherwise; [name] returns [None] exactly when the decoded native
    string is empty and that string otherwise; [album] returns [None]
    exactly when the native album pointer is null and an [Album] over it
    otherwise. *)
Theorem empty_sentinel_absence (to_unicode : list Byte.byte -> string)
    (sp_track : Z) (s : state) :
  error_raw (tracks s sp_track) = ErrorType_OK ->
  let t := tracks s sp_track in
  (fst (get_property to_unicode duration sp_track s) = Ok PNone <->
     duration_raw t = 0) /\
  (duration_raw t <> 0 ->
     fst (get_property to_unicode duration sp_track s) =
       Ok (PInt (duration_raw t))) /\
  (fst (get_property to_unicode disc sp_track s) = Ok PNone <->
     disc_raw t = 0) /\
  (disc_raw t <> 0 ->
     fst (get_property to_unicode disc sp_track s) = Ok (PInt (disc_raw t))) /\
  (fst (get_property to_unicode index sp_track s) = Ok PNone <->
     index_raw t = 0) /\
  (index_raw t <> 0 ->
     fst (get_property to_unicode index sp_track s) =
       Ok (PInt (index_raw t))) /\
  (fst (get_property to_unicode name sp_track s) = Ok PNone <->
     to_unicode (name_raw t) = EmptyString) /\
  (to_unicode (name_raw t) <> EmptyString ->
     fst (get_property to_unicode name sp_track s) =
       Ok (PStr (to_unicode (name_raw t)))) /\
  (fst (get_property to_unicode album sp_track s) = Ok PNone <->
     album_raw t = 0) /\
  (album_raw t <> 0 ->
     fst (get_property to_unicode album sp_track s) =
       Ok (PAlbum (album_raw t))).
Proof.
  intros He t. subst t. rewrite (Track_album_value to_unicode _ _ He).
  run_track. rewrite He. cbn.
  destruct (int_field_absence (duration_raw (tracks s sp_track))) as [D1 D2].
  destruct (int_field_absence (disc_raw (tracks s sp_track))) as [E1 E2].
  destruct (int_field_absence (index_raw (tracks s sp_track))) as [I1 I2].
  repeat split; intros;
    repeat match goal with
      | H : Ok _ = Ok _ |- _ => injection H as H
      end;
    try (destruct (Z.eqb_spec (album_raw (tracks s sp_track)) 0); congruence);
    try (destruct (String.eqb_spec (to_unicode (name_raw (tracks s sp_track)))
                     EmptyString); congruence);
    try (f_equal; tauto); try tauto.
Qed.

Lemma empty_sentinel_absence_witness :
  let s := sample_state (sample_track 1 0 0) None in
  error_raw (tracks s 5) = ErrorType_OK /\
  fst (get_property (fun _ => EmptyString) duration 5 s) = Ok PNone.
Proof.
  cbv zeta. split; [reflexivity |].
  apply (empty_sentinel_absence (fun _ => EmptyString) 5
           (sample_state (sample_track 1 0 0) None)); reflexivity.
Defined.

(** C7 (counterexample): a loaded, error-free track whose native
    popularity is 0 gets popularity 0, not [None]. *)
Lemma popularity_zero_not_absent :
  fst (get_property (fun _ => EmptyString) popularity 5
         (sample_state (sample_track 1 0 0) None)) = Ok (PInt 0) /\
  fst (get_property (fun _ => EmptyString) popularity 5
         (sample_state (sample_track 1 0 0) None)) <> Ok PNone.
Proof. split; [reflexivity | discriminate]. Qed.

(** C7 (amended): on an error-free track, [popularity] returns [None]
    exactly when the track is unloaded, and on a loaded track the native
    popularity unchanged, 0 included. *)
Theorem popularity_load_gated (to_unicode : list Byte.byte -> string)
    (sp_track : Z) (s : state) :
  error_raw (tracks s sp_track) = ErrorType_OK ->
  (is_loaded_raw (tracks s sp_track) = 0 ->
     fst (get_property to_unicode popularity sp_track s) = Ok PNone) /\
  (is_loaded_raw (tracks s sp_track) <> 0 ->
     fst (get_property to_unicode popularity sp_track s) =
       Ok (PInt (popularity_raw (tracks s sp_track)))).
Proof.
  intros He. run_track. rewrite He. cbn.
  unfold py_bool.
  split; intros Hl.
  - rewrite Hl. reflexivity.
  - apply Z.eqb_neq in Hl. rewrite Hl. reflexivity.
Qed.

Lemma popularity_load_gated_witness :
  error_raw (tracks (sample_state (sample_track 1 0 0) None) 5) = ErrorType_OK /\
  fst (get_property (fun _ => EmptyString) popularity 5
         (sample_state (sample_track 1 0 0) None)) = Ok (PInt 0).
Proof.
  split; [reflexivity |].
  apply (popularity_load_gated (fun _ => EmptyString) 5
           (sample_state (sample_track 1 0 0) None)); [reflexivity | discriminate].
Defined.

Lemma session_gated_no_session_witness :
  session_gated availability = true /\
  session_instance (sample_state (sample_track 1 0 0) None) = None /\
  get_property (fun _ => EmptyString) availability 5
    (sample_state (sample_track 1 0 0) None) =
    (Raise (RuntimeError "Session must be initialized"),
     sample_state (sample_track 1 0 0) None).
Proof.
  split; [reflexivity | split; [reflexivity |]].
  apply session_gated_no_session; reflexivity.
Defined.

Lemma error_gated_raise_witness :
  let s := sample_state (sample_track 1 3 0) (Some 9) in
  error_raw (tracks s 5) = 3 /\
  get_property (fun _ => EmptyString) is_starred 5 s =
    (Raise (LibError 3), log_call (sp_track_error 5) s).
Proof.
  cbv zeta. split; [reflexivity |].
  apply (error_gated_raise (fun _ => EmptyString) is_starred 5
           (sample_state (sample_track 1 3 0) (Some 9)) 3);
    [reflexivity | discriminate | reflexivity | discriminate].
Defined.

(** C8: [LocalTrack(artist, title, album, length)] passes [ffi.NULL] for
    each string argument that is [None] and the encoded text for each
    given one, [-1] for a [None] length and the given length otherwise,
    and adopts the vended handle without [sp_track_add_ref]: the only
    native call is the creation call and the new handle keeps the one
    reference the creation call gave it.  A given length must fit the C
    [int] parameter (otherwise cffi raises [OverflowError] and no track is
    created). *)
Theorem LocalTrack_init_adopts (to_bytes : string -> list Byte.byte)
    (artist title album : option string) (length : option Z) (s : state) :
  (forall l, length = Some l -> INT_MIN <= l <= INT_MAX) ->
  exists (a t al : native_str) (len : Z) (s' : state),
    LocalTrack_init to_bytes artist title album length s = (Ok (next_id s), s') /\
    trace s' = sp_localtrack_create a t al len :: trace s /\
    (artist = None -> a = NULL) /\
    (forall v, artist = Some v -> a = CharArray (to_bytes v)) /\
    (title = None -> t = NULL) /\
    (forall v, title = Some v -> t = CharArray (to_bytes v)) /\
    (album = None -> al = NULL) /\
    (forall v, album = Some v -> al = CharArray (to_bytes v)) /\
    (length = None -> len = -1) /\
    (forall l, length = Some l -> len = l) /\
    refcount s' (next_ptr s) = 1 /\
    objects s' !! next_id s = Some (next_ptr s).
Proof.
  intros Hlen. unfold LocalTrack_init.
  set (len := match length with None => -1 | Some l => l end).
  assert (Hb : (INT_MIN <=? len) && (len <=? INT_MAX) = true).
  { subst len. apply andb_true_intro.
    destruct length as [l |];
      [destruct (Hlen l eq_refl) as [H1 H2] |];
      split; apply Z.leb_le; unfold INT_MIN, INT_MAX in *; lia. }
  unfold c_int_arg at 1. rewrite Hb.
  eexists (convert to_bytes artist), (convert to_bytes title),
    (convert to_bytes album), len, _.
  split; [reflexivity |].
  split; [reflexivity |].
  repeat split; intros; subst; try reflexivity.
  - cbn. unfold upd. destruct (Z.eq_dec (next_ptr s) (next_ptr s)); congruence.
  - cbn. apply lookup_insert_eq.
Qed.

(** The effect of any property read on the object heap and the reference
    counts: no new object and at most one more reference (on the album
    [album] wraps), or (for [playable]) one new object over [r] together
    with one more reference on [r]. *)
Lemma get_property_effect (to_unicode : list Byte.byte -> string)
    (a : accessor) (q : Z) (t : state) :
  let t' := snd (get_property to_unicode a q t) in
  (objects t' = objects t /\ next_id t' = next_id t /\
   (refcount t' = refcount t \/
    exists r, refcount t' = upd (refcount t) r (refcount t r + 1))) \/
  (exists r, objects t' = <[next_id t := r]> (objects t) /\
             refcount t' = upd (refcount t) r (refcount t r + 1) /\
             next_id t' = S (next_id t)).
Proof.
  destruct a; run_track; branch_track;
    first
      [ left; split; [reflexivity | split; [reflexivity |]];
        first [left; reflexivity | right; eexists; reflexivity]
      | right; eexists; split; [reflexivity | split; reflexivity] ].
Qed.

Lemma ids_below_get_property (to_unicode : list Byte.byte -> string)
    (a : accessor) (q : Z) (t : state) :
  ids_below t -> ids_below (snd (get_property to_unicode a q t)).
Proof.
  intros H k p Hk.
  destruct (get_property_effect to_unicode a q t)
    as [[Ho [Hn _]] | [r [Ho [_ Hn]]]]; rewrite Hn; rewrite Ho in Hk.
  - exact (H k p Hk).
  - destruct (decide (k = next_id t)) as [-> | Hne]; [lia |].
    rewrite lookup_insert_ne in Hk by congruence.
    specialize (H k p Hk). lia.
Qed.

(** C9: with a session and [error] OK, [playable] returns a new Track
    object, distinct from [self] and from every live object, built with
    [add_ref=True] over the target libspotify resolves through the
    session: one [sp_track_add_ref] on the target and one more reference
    on it. *)
Theorem playable_fresh_wrapper (to_unicode : list Byte.byte -> string)
    (self : nat) (sp_track sp_session : Z) (s : state) :
  ids_below s ->
  objects s !! self = Some sp_track ->
  session_instance s = Some sp_session ->
  error_raw (tracks s sp_track) = ErrorType_OK ->
  let target := playable_raw (tracks s sp_track) in
  exists (id : nat) (s' : state),
    get_property to_unicode playable sp_track s = (Ok (PTrack id), s') /\
    id <> self /\
    objects s !! id = None /\
    objects s' !! id = Some target /\
    refcount s' target = refcount s target + 1 /\
    trace s' = sp_track_add_ref target :: sp_track_get_playable sp_session sp_track
                 :: sp_track_error sp_track :: trace s.
Proof.
  intros Hwf Hself Hs He target.
  exists (next_id s).
  eexists. split.
  { run_track. rewrite Hs. cbn. rewrite He. cbn. reflexivity. }
  cbn. repeat split.
  - specialize (Hwf self sp_track Hself). lia.
  - destruct (objects s !! next_id s) as [p |] eqn:E; [| reflexivity].
    specialize (Hwf _ _ E). lia.
  - apply lookup_insert_eq.
  - unfold upd. subst target. destruct (Z.eq_dec _ _) as [_ | Hne]; [reflexivity | congruence].
Qed.

Lemma playable_fresh_wrapper_witness :
  let s := sample_state (sample_track 1 0 0) (Some 9) in
  ids_below s /\ objects s !! 0%nat = Some 5 /\
  exists (id : nat) (s' : state),
    get_property (fun _ => EmptyString) playable 5 s = (Ok (PTrack id), s') /\
    id <> 0%nat.
Proof.
  cbv zeta.
  assert (Hwf : ids_below (sample_state (sample_track 1 0 0) (Some 9))).
  { intros k p Hk. cbn in Hk.
    destruct (decide (k = 0%nat)) as [-> | Hne]; [cbn; lia |].
    rewrite lookup_singleton_ne in Hk by congruence. discriminate. }
  split; [exact Hwf | split; [reflexivity |]].
  destruct (playable_fresh_wrapper (fun _ => EmptyString) 0 5 9
              (sample_state (sample_track 1 0 0) (Some 9)) Hwf
              eq_refl eq_refl eq_refl)
    as [id [s' [H1 [H2 _]]]].
  exists id, s'. split; [exact H1 | exact H2].
Defined.

Lemma upd_same (f : Z -> Z) (k v : Z) : upd f k v k = v.
Proof. unfold upd. destruct (Z.eq_dec k k); congruence. Qed.

Lemma upd_other (f : Z -> Z) (k v x : Z) : x <> k -> upd f k v x = f x.
Proof. intros H. unfold upd. destruct (Z.eq_dec x k); congruence. Qed.

(** C1: [Track(sp_track, add_ref)] takes one reference on [sp_track] when
    [add_ref] is true and none when it is false, and touches no other
    count; while the object lives, no property read releases a reference
    or ends its life; its end of life (the [ffi.gc] finalizer) gives back
    exactly one reference on [sp_track], and it cannot run a second time. *)
Theorem track_reference_lifecycle (to_unicode : list Byte.byte -> string)
    (sp_track : Z) (add_ref : bool) (s : state) :
  let '(r, s1) := Track_init sp_track add_ref s in
  r = Ok (next_id s) /\
  objects s1 !! next_id s = Some sp_track /\
  refcount s1 sp_track = refcount s sp_track + (if add_ref then 1 else 0) /\
  (forall q, q <> sp_track -> refcount s1 q = refcount s q) /\
  (forall (t : state) (a : accessor) (q : Z),
     ids_below t -> objects t !! next_id s = Some sp_track ->
     let t' := snd (get_property to_unicode a q t) in
     objects t' !! next_id s = Some sp_track /\
     (forall x, refcount t x <= refcount t' x)) /\
  (forall t : state,
     objects t !! next_id s = Some sp_track ->
     let '(o, t') := Track_finalize (next_id s) t in
     o = Ok tt /\
     refcount t' sp_track = refcount t sp_track - 1 /\
     (forall q, q <> sp_track -> refcount t' q = refcount t q) /\
     objects t' !! next_id s = None /\
     Track_finalize (next_id s) t' = (Ok tt, t')).
Proof.
  destruct add_ref; unfold Track_init, lib_sp_track_add_ref, set_refcount,
    alloc_object, native, log_call, bind, ret; cbn; (split; [reflexivity |]);
    (split; [apply lookup_insert_eq |]);
    (split; [rewrite ?upd_same; lia |]);
    (split; [intros q Hq; rewrite ?upd_other by exact Hq; reflexivity |]).
  all: split.
  1, 3: intros t a q Hwf Hid; cbv zeta;
    destruct (get_property_effect to_unicode a q t)
      as [[Ho [_ [Hr | [x Hr]]]] | [x [Ho [Hr _]]]]; rewrite Ho, Hr;
    (split;
     [ first [ exact Hid
             | rewrite lookup_insert_ne; [exact Hid |];
               specialize (Hwf _ _ Hid); lia ]
     | intros y; unfold upd;
       repeat destruct (Z.eq_dec _ _); subst; lia ]).
  all: intros t Hid; unfold Track_finalize, get, bind, ret, drop_object,
    lib_sp_track_release, native, log_call, set_refcount; cbn;
    rewrite Hid; cbn.
  all: split; [reflexivity |].
  all: split; [rewrite upd_same; reflexivity |].
  all: split; [intros q Hq; rewrite upd_other by exact Hq; reflexivity |].
  all: rewrite lookup_delete_eq; split; reflexivity.
Qed.

(** ** Further properties of the module *)

(** Only [playable] creates a Track object: every other property read
    leaves the object heap and the next object id as they were.  Apart
    from [playable], only [album] changes a reference count, by one
    reference on the album it wraps. *)
Theorem only_playable_allocates (to_unicode : list Byte.byte -> string)
    (a : accessor) (sp_track : Z) (s : state) :
  a <> playable ->
  let s' := snd (get_property to_unicode a sp_track s) in
  objects s' = objects s /\ next_id s' = next_id s /\
  (a <> album -> refcount s' = refcount s) /\
  (a = album ->
     let sp_album := album_raw (tracks s sp_track) in
     refcount s' = refcount s \/
     refcount s' = upd (refcount s) sp_album (refcount s sp_album + 1)).
Proof.
  intros Ha. destruct a; try (exfalso; apply Ha; reflexivity);
    run_track; branch_track; repeat split; intros; try discriminate;
    try (exfalso; congruence); auto.
Qed.

Lemma only_playable_allocates_witness :
  is_starred <> playable /\
  objects (snd (get_property (fun _ => EmptyString) is_starred 5
                  (sample_state (sample_track 1 0 0) (Some 9)))) =
    objects (sample_state (sample_track 1 0 0) (Some 9)).
Proof.
  split; [discriminate |].
  apply (only_playable_allocates (fun _ => EmptyString) is_starred 5
           (sample_state (sample_track 1 0 0) (Some 9))); discriminate.
Defined.

(** The accessors without the session check behave the same with and
    without an active session. *)
Theorem ungated_session_independent (to_unicode : list Byte.byte -> string)
    (a : accessor) (sp_track : Z) (s : state) (o : option Z) :
  session_gated a = false ->
  fst (get_property to_unicode a sp_track (with_session s o)) =
  fst (get_property to_unicode a sp_track s).
Proof.
  intros Ha. destruct a; try discriminate Ha; run_track; branch_track;
    reflexivity.
Qed.

Lemma ungated_session_independent_witness :
  session_gated offline_status = false /\
  fst (get_property (fun _ => EmptyString) offline_status 5
         (with_session (sample_state (sample_track 1 0 0) (Some 9)) None)) =
  fst (get_property (fun _ => EmptyString) offline_status 5
         (sample_state (sample_track 1 0 0) (Some 9))).
Proof.
  split; [reflexivity |].
  apply ungated_session_independent; reflexivity.
Defined.

(** In every accessor that checks [error], the native error query is the
    first native call it makes (once the session check, if any, passes). *)
Theorem error_query_first (to_unicode : list Byte.byte -> string)
    (a : accessor) (sp_track : Z) (s : state) :
  error_gated a = true ->
  (session_gated a = true -> session_instance s <> None) ->
  exists l : list native_call,
    trace (snd (get_property to_unicode a sp_track s)) =
      l ++ sp_track_error sp_track :: trace s.
Proof.
  intros Hg Hs.
  destruct a; try discriminate Hg; run_track; branch_track;
    try (exfalso; exact (Hs eq_refl eq_refl));
    first [ exists []; reflexivity
          | eexists [_]; reflexivity
          | eexists [_; _]; reflexivity ].
Qed.

Lemma error_query_first_witness :
  error_gated playable = true /\
  session_instance (sample_state (sample_track 1 0 0) (Some 9)) <> None /\
  exists l : list native_call,
    trace (snd (get_property (fun _ => EmptyString) playable 5
                  (sample_state (sample_track 1 0 0) (Some 9)))) =
      l ++ sp_track_error 5 :: trace (sample_state (sample_track 1 0 0) (Some 9)).
Proof.
  split; [reflexivity | split; [discriminate |]].
  apply error_query_first; [reflexivity | intros _; discriminate].
Defined.

(** The accessors outside [is_loaded], [is_local], [is_autolinked],
    [is_starred] and [popularity] never consult the load state: their
    result is the same whatever the native load flag says. *)
Theorem load_insensitive_accessors (to_unicode : list Byte.byte -> string)
    (a : accessor) (sp_track : Z) (s : state) (v : Z) :
  load_sensitive a = false ->
  fst (get_property to_unicode a sp_track (with_loaded s sp_track v)) =
  fst (get_property to_unicode a sp_track s).
Proof.
  intros Ha. destruct a; try discriminate Ha; run_track;
    (destruct (Z.eq_dec sp_track sp_track) as [_ | Hne];
     [| exfalso; apply Hne; reflexivity]); cbn;
    branch_track;
    first
      [ reflexivity
      | repeat match goal with
          | H : context [Z.eq_dec ?x ?x] |- _ =>
              destruct (Z.eq_dec x x); [| congruence]
          end;
        cbn in *; congruence ].
Qed.

Lemma load_insensitive_accessors_witness :
  load_sensitive duration = false /\
  fst (get_property (fun _ => EmptyString) duration 5
         (with_loaded (sample_state (sample_track 1 0 0) None) 5 0)) =
  fst (get_property (fun _ => EmptyString) duration 5
         (sample_state (sample_track 1 0 0) None)).
Proof.
  split; [reflexivity |].
  apply load_insensitive_accessors; reflexivity.
Defined.

(** On a loaded, error-free track with a session, [is_local],
    [is_autolinked] and [is_starred] return the native flag as a bool,
    asking libspotify with the session's [sp_session]. *)
Theorem loaded_flags_native (to_unicode : list Byte.byte -> string)
    (sp_track sp_session : Z) (s : state) :
  session_instance s = Some sp_session ->
  error_raw (tracks s sp_track) = ErrorType_OK ->
  is_loaded_raw (tracks s sp_track) <> 0 ->
  let t := tracks s sp_track in
  let s0 := log_call (sp_track_is_loaded sp_track)
              (log_call (sp_track_error sp_track) s) in
  get_property to_unicode is_local sp_track s =
    (Ok (PBool (py_bool (is_local_raw t))),
     log_call (sp_track_is_local sp_session sp_track) s0) /\
  get_property to_unicode is_autolinked sp_track s =
    (Ok (PBool (py_bool (is_autolinked_raw t))),
     log_call (sp_track_is_autolinked sp_session sp_track) s0) /\
  get_property to_unicode is_starred sp_track s =
    (Ok (PBool (py_bool (is_starred_raw t))),
     log_call (sp_track_is_starred sp_session sp_track) s0).
Proof.
  intros Hs He Hl t s0. subst t s0.
  apply Z.eqb_neq in Hl.
  run_track. rewrite Hs. cbn. rewrite He. cbn. unfold py_bool.
  rewrite Hl. cbn. repeat split; rewrite Hs; reflexivity.
Qed.

Lemma loaded_flags_native_witness :
  let s := sample_state (sample_track 1 0 0) (Some 9) in
  fst (get_property (fun _ => EmptyString) is_starred 5 s) = Ok (PBool true).
Proof.
  cbv zeta.
  destruct (loaded_flags_native (fun _ => EmptyString) 5 9
              (sample_state (sample_track 1 0 0) (Some 9))
              eq_refl eq_refl ltac:(discriminate)) as [_ [_ H]].
  rewrite H. reflexivity.
Defined.

(** With a session and [error] OK, [availability] asks libspotify for the
    availability of the track in that session and wraps it as a
    [TrackAvailability]; it never consults the load state. *)
Theorem availability_native (to_unicode : list Byte.byte -> string)
    (sp_track sp_session : Z) (s : state) :
  session_instance s = Some sp_session ->
  error_raw (tracks s sp_track) = ErrorType_OK ->
  get_property to_unicode availability sp_track s =
    (Ok (PTrackAvailability (availability_raw (tracks s sp_track))),
     log_call (sp_track_get_availability sp_session sp_track)
       (log_call (sp_track_error sp_track) s)).
Proof.
  intros Hs He. run_track. rewrite Hs. cbn. rewrite He. cbn. rewrite Hs. reflexivity.
Qed.

Lemma availability_native_witness :
  get_property (fun _ => EmptyString) availability 5
    (sample_state (sample_track 0 0 0) (Some 9)) =
  (Ok (PTrackAvailability 1),
   log_call (sp_track_get_availability 9 5)
     (log_call (sp_track_error 5) (sample_state (sample_track 0 0 0) (Some 9)))).
Proof.
  apply (availability_native (fun _ => EmptyString) 5 9
           (sample_state (sample_track 0 0 0) (Some 9))); reflexivity.
Defined.

Lemma ids_below_insert_next (s s' : state) (p : Z) :
  ids_below s ->
  objects s' = <[next_id s := p]> (objects s) -> next_id s' = S (next_id s) ->
  ids_below s'.
Proof.
  intros H Ho Hn k r Hk. rewrite Hn. rewrite Ho in Hk.
  destruct (decide (k = next_id s)) as [-> | Hne]; [lia |].
  rewrite lookup_insert_ne in Hk by congruence.
  specialize (H k r Hk). lia.
Qed.

Lemma ids_below_sample :
  ids_below (sample_state (sample_track 1 0 0) (Some 9)).
Proof.
  intros k p Hk. cbn in Hk.
  destruct (decide (k = 0%nat)) as [-> | Hne]; [cbn; lia |].
  rewrite lookup_singleton_ne in Hk by congruence. discriminate.
Qed.

(** Wrapping a handle in a [Track] and letting the object die restores the
    object heap; with [add_ref=True] every reference count is back where it
    was, with [add_ref=False] the adopted reference on the handle is gone. *)
Theorem wrap_then_collect (s : state) (p : Z) (add_ref : bool) :
  ids_below s ->
  let s2 := snd (Track_finalize (next_id s) (snd (Track_init p add_ref s))) in
  objects s2 = objects s /\
  refcount s2 p = refcount s p + (if add_ref then 0 else -1) /\
  (forall q, q <> p -> refcount s2 q = refcount s q).
Proof.
  intros H s2.
  assert (Hfree : objects s !! next_id s = None).
  { destruct (objects s !! next_id s) as [r |] eqn:E; [| reflexivity].
    specialize (H _ _ E). lia. }
  subst s2. destruct add_ref;
    unfold Track_init, lib_sp_track_add_ref, set_refcount, alloc_object,
      Track_finalize, drop_object, lib_sp_track_release, native, log_call,
      get, bind, ret; cbn; rewrite lookup_insert_eq; cbn;
    (split; [apply delete_insert_id; exact Hfree |]);
    (split; [rewrite !upd_same; try rewrite upd_same; lia |]);
    intros q Hq; rewrite !upd_other by exact Hq; reflexivity.
Qed.

Lemma wrap_then_collect_witness :
  ids_below (sample_state (sample_track 1 0 0) (Some 9)) /\
  refcount (snd (Track_finalize 1
                   (snd (Track_init 7 true
                           (sample_state (sample_track 1 0 0) (Some 9)))))) 7 = 1.
Proof.
  split; [exact ids_below_sample |].
  destruct (wrap_then_collect (sample_state (sample_track 1 0 0) (Some 9)) 7 true
              ids_below_sample) as [_ [H _]].
  exact H.
Defined.

Lemma c_int_arg_in_range (v : Z) :
  INT_MIN <= v <= INT_MAX -> c_int_arg v = ret v.
Proof.
  intros [H1 H2]. unfold c_int_arg.
  apply Z.leb_le in H1. apply Z.leb_le in H2. rewrite H1, H2. reflexivity.
Qed.

Lemma localtrack_length_in_range (length : option Z) :
  (forall l, length = Some l -> INT_MIN <= l <= INT_MAX) ->
  INT_MIN <= match length with None => -1 | Some l => l end <= INT_MAX.
Proof.
  intros H. destruct length as [l |]; [exact (H l eq_refl) |].
  unfold INT_MIN, INT_MAX. lia.
Qed.

(** A [LocalTrack] whose object dies gives back the one reference the
    creation call vended: its handle ends with no reference left, and the
    object heap is as before (for a length that fits the C [int]). *)
Theorem localtrack_then_collect (to_bytes : string -> list Byte.byte)
    (artist title album : option string) (length : option Z) (s : state) :
  (forall l, length = Some l -> INT_MIN <= l <= INT_MAX) ->
  ids_below s ->
  let s2 := snd (Track_finalize (next_id s)
                   (snd (LocalTrack_init to_bytes artist title album length s))) in
  objects s2 = objects s /\ refcount s2 (next_ptr s) = 0.
Proof.
  intros Hlen H s2.
  assert (Hfree : objects s !! next_id s = None).
  { destruct (objects s !! next_id s) as [r |] eqn:E; [| reflexivity].
    specialize (H _ _ E). lia. }
  subst s2. unfold LocalTrack_init.
  rewrite (c_int_arg_in_range _ (localtrack_length_in_range length Hlen)).
  unfold lib_sp_localtrack_create, Track_init, alloc_object,
    Track_finalize, drop_object, lib_sp_track_release, native, log_call,
    set_refcount, get, bind, ret; cbn; rewrite lookup_insert_eq; cbn.
  split; [apply delete_insert_id; exact Hfree |].
  rewrite !upd_same. reflexivity.
Qed.

Lemma localtrack_then_collect_witness :
  ids_below (sample_state (sample_track 1 0 0) None) /\
  refcount (snd (Track_finalize 1
                   (snd (LocalTrack_init (fun _ => []) None None None None
                           (sample_state (sample_track 1 0 0) None))))) 100 = 0.
Proof.
  split.
  - intros k p Hk. cbn in Hk.
    destruct (decide (k = 0%nat)) as [-> | Hne]; [cbn; lia |].
    rewrite lookup_singleton_ne in Hk by congruence. discriminate.
  - apply (localtrack_then_collect (fun _ => []) None None None None
             (sample_state (sample_track 1 0 0) None)).
    { intros l Hl; discriminate Hl. }
    intros k p Hk. cbn in Hk.
    destruct (decide (k = 0%nat)) as [-> | Hne]; [cbn; lia |].
    rewrite lookup_singleton_ne in Hk by congruence. discriminate.
Defined.

(** A [LocalTrack] length that does not fit the C [int] parameter makes
    the creation call raise [OverflowError] before reaching libspotify:
    no native call, no track, no object, the state left as it was. *)
Theorem localtrack_length_overflow (to_bytes : string -> list Byte.byte)
    (artist title album : option string) (l : Z) (s : state) :
  ~ (INT_MIN <= l <= INT_MAX) ->
  LocalTrack_init to_bytes artist title album (Some l) s =
    (Raise (OverflowError "integer does not fit 'int'"), s).
Proof.
  intros Hl. unfold LocalTrack_init, c_int_arg, bind, raise.
  destruct ((INT_MIN <=? l) && (l <=? INT_MAX)) eqn:E; [| reflexivity].
  exfalso. apply Hl. apply andb_true_iff in E as [E1 E2].
  apply Z.leb_le in E1. apply Z.leb_le in E2. lia.
Qed.

Lemma localtrack_length_overflow_witness :
  ~ (INT_MIN <= 2 ^ 31 <= INT_MAX) /\
  LocalTrack_init (fun _ => []) None None None (Some (2 ^ 31))
    (sample_state (sample_track 1 0 0) None) =
    (Raise (OverflowError "integer does not fit 'int'"),
     sample_state (sample_track 1 0 0) None).
Proof.
  assert (H : not (INT_MIN <= 2 ^ 31 <= INT_MAX)).
  { unfold INT_MIN, INT_MAX. lia. }
  split; [exact H |].
  apply localtrack_length_overflow. exact H.
Defined.

Lemma LocalTrack_init_adopts_witness :
  (forall l, Some 210000 = Some l -> INT_MIN <= l <= INT_MAX) /\
  exists (a t al : native_str) (len : Z) (s' : state),
    LocalTrack_init (fun _ => [Byte.x41]) (Some "A"%string) None None
      (Some 210000) (sample_state (sample_track 1 0 0) None) =
      (Ok 1%nat, s') /\
    trace s' = [sp_localtrack_create a t al len].
Proof.
  assert (H : forall l, Some 210000 = Some l -> INT_MIN <= l <= INT_MAX).
  { intros l Hl. injection Hl as <-. unfold INT_MIN, INT_MAX. lia. }
  split; [exact H |].
  destruct (LocalTrack_init_adopts (fun _ => [Byte.x41]) (Some "A"%string)
              None None (Some 210000) (sample_state (sample_track 1 0 0) None) H)
    as [a [t [al [len [s' [H1 [H2 _]]]]]]].
  exists a, t, al, len, s'. split; [exact H1 | exact H2].
Defined.
